(** * Supervisor PIN authentication and the in-memory token store

    A shallow embedding of the authentication block of [server.js]
    (lines 135-174 and 265-388): the [activeTokens] map, [hashPin],
    [generateToken], [validateToken], the periodic cleanup callback, the
    three [/api/auth/*] handlers and the [requireAuth] middleware, and of
    the CORS origin callback (lines 196-217).

    Conventions.
    - A JavaScript string is the list of its UTF-16 code units, so that
      [length] is the [.length] of the source.
    - [Date.now()] is an integer number of milliseconds; every call site of
      the source is an explicit argument of the embedded function, in the
      order of the calls.
    - [activeTokens] is a [gmap] from strings to [tokenData]; a handler is a
      function from the map before the request to its answer, the map after
      the request and the list of observable events (hash computations and
      console lines) in the order in which they happen.
    - SHA-256 and the random source are external: the digest is a Section
      variable, the 32 random bytes are an argument of the handler. *)

From Stdlib Require Import ZArith NArith List Ascii String.
From stdpp Require Import base option list gmap fin_maps.

Open Scope Z_scope.

(** ** JavaScript values that reach the handlers *)

Abbreviation jsstring := (list N).

(** Code units of an ASCII literal of the source. *)
Definition js (s : string) : jsstring :=
  map N_of_ascii (list_ascii_of_string s).

(** A field of [req.body] (or a header) is a string or something else; of
    the other values only their truthiness is ever observed, since
    [typeof v !== 'string'] and no non-string is a key of the map. *)
Inductive jsval : Type :=
  | JStr (s : jsstring)
  | JOther (truthy : bool).

(** [!!v]: the empty string is the only falsy string. *)
Definition truthy (v : jsval) : bool :=
  match v with
  | JStr [] => false
  | JStr (_ :: _) => true
  | JOther b => b
  end.

(** [a || b] on an environment variable that may be unset. *)
Definition or_default (a : option jsstring) (b : jsstring) : jsstring :=
  match a with
  | Some (c :: s) => c :: s
  | Some [] | None => b
  end.

(** ** Configuration *)

Record ProcessEnv : Type := {
  env_PIN_SALT : option jsstring;
  env_SUPERVISOR_PIN_HASH : option jsstring;
  (** [parseInt(process.env.TOKEN_EXPIRY_MS)]; [None] is [NaN]. *)
  env_TOKEN_EXPIRY_MS : option Z
}.

Definition default_env : ProcessEnv :=
  {| env_PIN_SALT := None;
     env_SUPERVISOR_PIN_HASH := None;
     env_TOKEN_EXPIRY_MS := None |}.

(** ** The token map *)

Record tokenData : Type := {
  createdAt : Z;
  expiresAt : Z;
  ip : jsstring
}.

Abbreviation Store := (gmap jsstring tokenData).

(** [Map.prototype.get], [has] and [delete] at an arbitrary key: keys are
    compared without coercion, and every key of the map is a string. *)
Definition Map_get (k : jsval) (m : Store) : option tokenData :=
  match k with
  | JStr t => m !! t
  | JOther _ => None
  end.

Definition Map_has (k : jsval) (m : Store) : bool :=
  match Map_get k m with
  | Some _ => true
  | None => false
  end.

Definition Map_delete (k : jsval) (m : Store) : Store :=
  match k with
  | JStr t => delete t m
  | JOther _ => m
  end.

(** ** Observable events and the handler monad *)

Inductive LogLine : Type :=
  | LogAuthenticated (ip : jsstring)
  | LogFailedAttempt (ip : jsstring)
  | LogTokenInvalidated.

Inductive Event : Type :=
  | Hashed (input : jsstring)
  | Logged (line : LogLine).

Definition Handler (A : Type) : Type := Store → A * Store * list Event.

#[export] Instance handler_ret : MRet Handler :=
  λ A a s, (a, s, []).

#[export] Instance handler_bind : MBind Handler :=
  λ A B f m s,
    let '(a, s1, e1) := m s in
    let '(b, s2, e2) := f a s1 in
    (b, s2, e1 ++ e2).

Definition has (token : jsval) : Handler bool :=
  λ s, (Map_has token s, s, []).

Definition get (token : jsval) : Handler (option tokenData) :=
  λ s, (Map_get token s, s, []).

Definition set (token : jsstring) (d : tokenData) : Handler unit :=
  λ s, (tt, <[token := d]> s, []).

Definition delete_token (token : jsval) : Handler unit :=
  λ s, (tt, Map_delete token s, []).

Definition console_log (l : LogLine) : Handler unit :=
  λ s, (tt, s, [Logged l]).

(** Projections of a finished handler run. *)
Definition answer {A} (r : A * Store * list Event) : A := r.1.1.
Definition store_after {A} (r : A * Store * list Event) : Store := r.1.2.
Definition events {A} (r : A * Store * list Event) : list Event := r.2.

(** ** [Buffer.toString('hex')] *)

Definition hex_digit (n : N) : N :=
  (if n <? 10 then 48 + n else 87 + n)%N.

Definition hex_byte (b : N) : jsstring :=
  [hex_digit (b / 16); hex_digit (b mod 16)]%N.

Fixpoint toString_hex (bytes : list N) : jsstring :=
  match bytes with
  | [] => []
  | b :: rest => hex_byte b ++ toString_hex rest
  end.

(** [generateToken]: [crypto.randomBytes(32).toString('hex')], the random
    bytes being supplied by the caller. *)
Definition generateToken (randomBytes : list N) : jsstring :=
  toString_hex randomBytes.

(** ** [validateToken] (server.js 153-163) *)

Definition validateToken (now : Z) (token : jsval) : Handler bool :=
  if negb (truthy token) then mret false else
  present ← has token;
  if negb present then mret false else
  d ← get token;
  match d with
  | None => mret false
  | Some tokenData =>
      if now >? expiresAt tokenData
      then delete_token token;; mret false
      else mret true
  end.

(** ** The cleanup callback of [setInterval] (server.js 166-173)

    The loop visits the entries of the map and deletes, at each one, the
    visited key when it is past its expiry. *)
Definition sweep_step (now : Z) (acc : Store) (e : jsstring * tokenData) : Store :=
  if now >? expiresAt e.2 then delete e.1 acc else acc.

Definition sweep (now : Z) (s : Store) : Store :=
  foldl (sweep_step now) s (map_to_list s).

(** ** Answers of the authentication endpoints

    One constructor per [res.json] call of the source. The [catch] arms
    (status 500) are reached only when the body of the [try] throws. *)
Inductive Response : Type :=
  | InvalidFormat        (* 400, 'Invalid PIN format. PIN must be 4 digits.' *)
  | Authenticated (token : jsstring) (expires_at expires_in : Z)
  | InvalidCredential    (* 401, 'Invalid PIN' *)
  | TokenRequired        (* 400, 'Token required' *)
  | TokenValid (expires_at remaining_ms : Z)
  | TokenInvalid         (* 200, valid: false, 'Token expired or invalid' *)
  | LoggedOut            (* 200, 'Logged out successfully' *)
  | ServiceError.        (* 500 *)

Definition status (r : Response) : Z :=
  match r with
  | InvalidFormat | TokenRequired => 400
  | InvalidCredential => 401
  | ServiceError => 500
  | Authenticated _ _ _ | TokenValid _ _ | TokenInvalid | LoggedOut => 200
  end.

Definition success (r : Response) : bool :=
  match r with
  | Authenticated _ _ _ | TokenValid _ _ | TokenInvalid | LoggedOut => true
  | InvalidFormat | InvalidCredential | TokenRequired | ServiceError => false
  end.

Definition is_string (v : jsval) : bool :=
  match v with
  | JStr _ => true
  | JOther _ => false
  end.

(** The code units of a value already known to be a string. *)
Definition string_of (v : jsval) : jsstring :=
  match v with
  | JStr s => s
  | JOther _ => []
  end.

Section Auth.

(** [crypto.createHash('sha256').update(x).digest('hex')]. *)
Variable sha256_hex : jsstring → jsstring.

(** [process.env], read once. *)
Variable env : ProcessEnv.

(** [parseInt(process.env.TOKEN_EXPIRY_MS) || 8 * 60 * 60 * 1000]: [NaN]
    and [0] are the falsy results of [parseInt]. *)
Definition TOKEN_EXPIRY_MS : Z :=
  match env_TOKEN_EXPIRY_MS env with
  | None | Some 0 => 8 * 60 * 60 * 1000
  | Some ms => ms
  end.

Definition salt : jsstring :=
  or_default (env_PIN_SALT env) (js "cws-safety-2024").

(** [hashPin] (server.js 142-145). *)
Definition hashPin (pin : jsstring) : jsstring :=
  sha256_hex (pin ++ salt).

(** A call of [hashPin] from a handler: the digest computation is
    recorded as an event. *)
Definition call_hashPin (pin : jsstring) : Handler jsstring :=
  λ s, (hashPin pin, s, [Hashed (pin ++ salt)]).

(** [process.env.SUPERVISOR_PIN_HASH || hashPin('4698')], evaluated when
    the module is loaded. *)
Definition SUPERVISOR_PIN_HASH : jsstring :=
  or_default (env_SUPERVISOR_PIN_HASH env) (hashPin (js "4698")).

(** ** [POST /api/auth/verify-pin] (server.js 277-325)

    [now1] is the [Date.now()] of the expiry computation, [now2] the one
    of the [createdAt] field. *)
Definition verify_pin (randomBytes : list N) (now1 now2 : Z)
    (req_ip : jsstring) (pin : jsval) : Handler Response :=
  if negb (truthy pin) || negb (is_string pin)
     || negb (length (string_of pin) =? 4)%nat
  then mret InvalidFormat
  else
    providedPinHash ← call_hashPin (string_of pin);
    if decide (providedPinHash = SUPERVISOR_PIN_HASH) then
      let token := generateToken randomBytes in
      let expires := now1 + TOKEN_EXPIRY_MS in
      set token {| createdAt := now2; expiresAt := expires; ip := req_ip |};;
      console_log (LogAuthenticated req_ip);;
      mret (Authenticated token expires TOKEN_EXPIRY_MS)
    else
      console_log (LogFailedAttempt req_ip);;
      mret InvalidCredential.

(** The store operation of the issue branch alone. *)
Definition issue (randomBytes : list N) (now1 now2 : Z)
    (req_ip : jsstring) (s : Store) : Store :=
  <[generateToken randomBytes :=
      {| createdAt := now2; expiresAt := now1 + TOKEN_EXPIRY_MS;
         ip := req_ip |}]> s.

End Auth.

(** ** [POST /api/auth/validate-token] (server.js 328-365)

    [now1] is read inside [validateToken], [now2] for [remainingMs]. A
    missing entry after a successful validation would raise a [TypeError],
    which the [catch] arm answers. *)
Definition validate_token (now1 now2 : Z) (token : jsval) : Handler Response :=
  if negb (truthy token) then mret TokenRequired else
  isValid ← validateToken now1 token;
  if (isValid : bool) then
    d ← get token;
    match d with
    | Some tokenData =>
        mret (TokenValid (expiresAt tokenData) (expiresAt tokenData - now2))
    | None => mret ServiceError
    end
  else mret TokenInvalid.

(** ** [POST /api/auth/logout] (server.js 368-388) *)
Definition logout (token : jsval) : Handler Response :=
  let skip : Handler unit := mret tt in
  (if truthy token then
     present ← has token;
     if (present : bool)
     then delete_token token;; console_log LogTokenInvalidated
     else skip
   else skip);;
  mret LoggedOut.

(** [revoke]: the effect of [logout] on the map. *)
Definition revoke (token : jsval) (s : Store) : Store :=
  store_after (logout token s).

(** ** Four-digit PINs

    Exactly four characters, each a decimal digit: the shape the error
    message of [verify-pin] asks for. The handler itself tests the length
    only. *)
Definition is_digit (c : N) : bool := ((48 <=? c) && (c <=? 57))%N.

Definition four_digits (p : jsstring) : bool :=
  (length p =? 4)%nat && forallb is_digit p.

(** ** Sequences of store operations

    The four operations on the map, as the requests and timer ticks that
    reach it: the issue branch of [verify_pin], [validateToken], [logout]
    and the cleanup loop. *)
Inductive Op : Type :=
  | OpIssue (randomBytes : list N) (now1 now2 : Z) (req_ip : jsstring)
  | OpValidate (now : Z) (token : jsval)
  | OpRevoke (token : jsval)
  | OpSweep (now : Z).

Definition apply_op (env : ProcessEnv) (op : Op) (s : Store) : Store :=
  match op with
  | OpIssue rnd now1 now2 req_ip => issue env rnd now1 now2 req_ip s
  | OpValidate now token => store_after (validateToken now token s)
  | OpRevoke token => revoke token s
  | OpSweep now => sweep now s
  end.

Definition run_ops (env : ProcessEnv) (ops : list Op) (s : Store) : Store :=
  foldl (λ acc op, apply_op env op acc) s ops.

(** The token an operation stores, if it stores one. *)
Definition issues (op : Op) : option jsstring :=
  match op with
  | OpIssue rnd _ _ _ => Some (generateToken rnd)
  | _ => None
  end.

(** The time elapsed between the two clock readings of an issue is
    shorter than the configured time to live. *)
Definition issue_in_time (env : ProcessEnv) (op : Op) : Prop :=
  match op with
  | OpIssue _ now1 now2 _ => now2 - now1 < TOKEN_EXPIRY_MS env
  | _ => True
  end.

(** The two clock readings of an issue return the same instant. *)
Definition issue_at_one_instant (op : Op) : Prop :=
  match op with
  | OpIssue _ now1 now2 _ => now2 = now1
  | _ => True
  end.

Definition store_inv (s : Store) : Prop :=
  ∀ t d, s !! t = Some d → expiresAt d > createdAt d.

(** ** Concrete runs

    A stand-in for SHA-256 in concrete runs: the identity on code units,
    which is injective. The default reference hash is computed by the same
    function, so the runs below take the same branches under any digest. *)
Definition plain_digest (x : jsstring) : jsstring := x.

Definition sample_bytes : list N := map N.of_nat (seq 0 32).
Definition other_bytes : list N := map N.of_nat (seq 100 32).
Definition sample_ip : jsstring := js "127.0.0.1".

(** The map after one successful PIN verification at instant [0] with the
    default configuration: one session, expiring at [28800000]. *)
Definition one_session : Store :=
  store_after
    (verify_pin plain_digest default_env sample_bytes 0 0 sample_ip
       (JStr (js "4698")) ∅).

Definition sample_token : jsstring := generateToken sample_bytes.

(** A configuration with [TOKEN_EXPIRY_MS=1]. *)
Definition one_ms_ttl_env : ProcessEnv :=
  {| env_PIN_SALT := None;
     env_SUPERVISOR_PIN_HASH := None;
     env_TOKEN_EXPIRY_MS := Some 1 |}.

(** A configuration with [TOKEN_EXPIRY_MS=-1000]. *)
Definition negative_ttl_env : ProcessEnv :=
  {| env_PIN_SALT := None;
     env_SUPERVISOR_PIN_HASH := None;
     env_TOKEN_EXPIRY_MS := Some (-1000) |}.

(** Strict equality of request fields is decidable. *)
#[export] Instance jsval_eq_dec : EqDecision jsval.
Proof. solve_decision. Defined.

(** ** [requireAuth] (server.js 391-409)

    [req.headers['x-auth-token'] || req.body.token], with [req.body] the
    object the body parsers leave. *)
Inductive AuthOutcome : Type :=
  | AuthenticationRequired   (* 401, 'Authentication required' *)
  | InvalidOrExpiredToken    (* 401, 'Invalid or expired token' *)
  | Next.                    (* next() *)

(** [a || b] on two request fields. *)
Definition or_else (a b : jsval) : jsval :=
  if truthy a then a else b.

Definition requireAuth (now : Z) (header body_token : jsval)
    : Handler AuthOutcome :=
  let token := or_else header body_token in
  if negb (truthy token) then mret AuthenticationRequired else
  valid ← validateToken now token;
  if negb valid then mret InvalidOrExpiredToken else mret Next.

(** ** The CORS origin callback (server.js 196-217) *)

(** [String.prototype.split] at a one-character separator. *)
Fixpoint split_on (sep : N) (s : jsstring) : list jsstring :=
  match s with
  | [] => [[]]
  | c :: rest =>
      if (c =? sep)%N then [] :: split_on sep rest
      else match split_on sep rest with
           | piece :: pieces => (c :: piece) :: pieces
           | [] => [[c]]
           end
  end.

(** [Array.prototype.join] at a one-character separator. *)
Fixpoint join_with (sep : N) (pieces : list jsstring) : jsstring :=
  match pieces with
  | [] => []
  | [piece] => piece
  | piece :: rest => piece ++ sep :: join_with sep rest
  end.

Definition comma : N := 44%N.

(** [process.env.ALLOWED_ORIGINS ? process.env.ALLOWED_ORIGINS.split(',')
    : ['http://localhost:3000']]. *)
Definition allowedOrigins (env_ALLOWED_ORIGINS : option jsstring)
    : list jsstring :=
  match env_ALLOWED_ORIGINS with
  | Some (c :: s) => split_on comma (c :: s)
  | Some [] | None => [js "http://localhost:3000"]
  end.

Inductive CorsDecision : Type :=
  | OriginAllowed       (* callback(null, true) *)
  | OriginNotAllowed.   (* callback(new Error('CORS policy: ...'), false) *)

(** The [origin] function given to [cors]; [None] is a request without an
    [Origin] header. *)
Definition cors_origin (allowed : list jsstring) (origin : option jsstring)
    : CorsDecision :=
  match origin with
  | None | Some [] => OriginAllowed
  | Some o =>
      if bool_decide (o = js "null") then OriginAllowed
      else if bool_decide (js "*" ∈ allowed) then OriginAllowed
      else if negb (bool_decide (o ∈ allowed)) then OriginNotAllowed
      else OriginAllowed
  end.

(** ** Operations that leave a session alone

    [spares t d op]: the operation neither revokes nor redraws the token
    [t], and reads the clock no later than the expiry of its session [d]
    where it would expire it. *)
Definition spares (t : jsstring) (d : tokenData) (op : Op) : Prop :=
  match op with
  | OpIssue rnd _ _ _ => generateToken rnd ≠ t
  | OpValidate now token => token = JStr t → now ≤ expiresAt d
  | OpRevoke token => token ≠ JStr t
  | OpSweep now => now ≤ expiresAt d
  end.

(** ** Shapes of bytes and of hexadecimal text *)

Definition is_byte (b : N) : bool := (b <? 256)%N.

(** One of [0-9a-f]. *)
Definition is_hex_char (c : N) : bool :=
  ((48 <=? c) && (c <=? 57) || (97 <=? c) && (c <=? 102))%N.

(** * Properties *)

(** Unfold the handler monad and its primitive actions. *)
Ltac run_handler :=
  unfold has, get, set, delete_token, console_log, Map_has,
    mbind, mret, handler_bind, handler_ret in *.

(** ** Running [validateToken] *)

Lemma validateToken_other now b s :
  validateToken now (JOther b) s = (false, s, []).
Proof. by destruct b. Qed.

Lemma validateToken_empty now s :
  validateToken now (JStr []) s = (false, s, []).
Proof. done. Qed.

Lemma validateToken_absent now t s :
  s !! t = None → validateToken now (JStr t) s = (false, s, []).
Proof.
  intros Hnone. destruct t as [|c t]; [done|].
  unfold validateToken; run_handler; simpl. by rewrite Hnone.
Qed.

Lemma validateToken_present now t d s :
  t ≠ [] → s !! t = Some d →
  validateToken now (JStr t) s =
    if now >? expiresAt d then (false, delete t s, []) else (true, s, []).
Proof.
  intros Hne Hsome. destruct t as [|c t]; [done|].
  unfold validateToken; run_handler; simpl.
  rewrite Hsome; simpl; rewrite Hsome.
  by destruct (now >? expiresAt d).
Qed.

(** The three possible outcomes, for any argument. *)
Lemma validateToken_cases now token s :
  validateToken now token s = (false, s, [])
  ∨ (∃ t d, token = JStr t ∧ s !! t = Some d ∧ now > expiresAt d
       ∧ validateToken now token s = (false, delete t s, []))
  ∨ (∃ t d, token = JStr t ∧ t ≠ [] ∧ s !! t = Some d ∧ now ≤ expiresAt d
       ∧ validateToken now token s = (true, s, [])).
Proof.
  destruct token as [t|b]; [|left; apply validateToken_other].
  destruct t as [|c t]; [by left|].
  destruct (s !! (c :: t)) as [d|] eqn:Hlook.
  - rewrite (validateToken_present now (c :: t) d s) by done.
    destruct (Z.gtb_spec now (expiresAt d)).
    + right; left. exists (c :: t), d. repeat split; [done|lia].
    + right; right. exists (c :: t), d. repeat split; [done..|lia].
  - left. by apply validateToken_absent.
Qed.

(** ** Running the cleanup loop *)

Lemma sweep_step_lookup_None now acc e t :
  acc !! t = None → sweep_step now acc e !! t = None.
Proof.
  intros Hnone. unfold sweep_step. destruct (now >? expiresAt e.2); [|done].
  rewrite lookup_delete. by case_decide.
Qed.

Lemma sweep_loop_lookup_None now l : ∀ acc t,
  acc !! t = None → foldl (sweep_step now) acc l !! t = None.
Proof.
  induction l as [|e l IH]; intros acc t Hnone; simpl; [done|].
  by apply IH, sweep_step_lookup_None.
Qed.

Lemma sweep_loop_deletes now l : ∀ acc t d,
  (t, d) ∈ l → now > expiresAt d →
  foldl (sweep_step now) acc l !! t = None.
Proof.
  induction l as [|e l IH]; intros acc t d Hin Hexp; simpl.
  - by apply elem_of_nil in Hin.
  - apply elem_of_cons in Hin as [<-|Hin]; [|by eapply IH].
    apply sweep_loop_lookup_None. unfold sweep_step; simpl.
    destruct (Z.gtb_spec now (expiresAt d)); [|lia].
    apply lookup_delete_eq.
Qed.

Lemma sweep_loop_keeps now l : ∀ acc t,
  (∀ d, (t, d) ∈ l → now ≤ expiresAt d) →
  foldl (sweep_step now) acc l !! t = acc !! t.
Proof.
  induction l as [|e l IH]; intros acc t Hlive; simpl; [done|].
  rewrite IH; [|intros d Hd; apply Hlive; by right].
  unfold sweep_step. destruct (Z.gtb_spec now (expiresAt e.2)) as [Hgt|]; [|done].
  destruct e as [t' d']; simpl in *.
  destruct (decide (t' = t)) as [->|Hne]; [|by apply lookup_delete_ne].
  specialize (Hlive d' ltac:(by left)). lia.
Qed.

(** The loop is a filter on the expiry. *)
Lemma sweep_lookup now s t :
  sweep now s !! t =
    match s !! t with
    | Some d => if now >? expiresAt d then None else Some d
    | None => None
    end.
Proof.
  unfold sweep. destruct (s !! t) as [d|] eqn:Hlook.
  - destruct (Z.gtb_spec now (expiresAt d)) as [Hgt|Hle].
    + apply (sweep_loop_deletes now _ s t d); [|lia].
      by apply elem_of_map_to_list.
    + rewrite sweep_loop_keeps; [done|].
      intros d' Hd'. apply elem_of_map_to_list in Hd'. by simplify_eq.
  - by apply sweep_loop_lookup_None.
Qed.

(** ** Lazy expiry in [validateToken] *)

(** An entry whose expiry equals the clock reading is still accepted and
    kept: the source compares with [>]. *)
Lemma validateToken_at_expiry_accepts :
  one_session !! sample_token
    = Some {| createdAt := 0; expiresAt := 28800000; ip := sample_ip |}
  ∧ 28800000 >= 28800000
  ∧ answer (validateToken 28800000 (JStr sample_token) one_session) = true
  ∧ store_after (validateToken 28800000 (JStr sample_token) one_session)
      !! sample_token
    = Some {| createdAt := 0; expiresAt := 28800000; ip := sample_ip |}.
Proof. repeat split; first [lia | vm_compute; reflexivity]. Qed.

(** C1 (amended): a token that is absent from the map, or present with the
    clock strictly past its [expiresAt], is answered [false]; an absent
    token leaves the map as it is, and an expired one is deleted by the
    call (every key of the map being a non-empty string, as the generated
    tokens are). At the clock reading equal to its [expiresAt] a stored
    token is still answered [true], and its entry is kept. *)
Theorem validateToken_lazy_expiry now token s :
  ((Map_get token s = None
    ∨ ∃ d, Map_get token s = Some d ∧ now > expiresAt d) →
   answer (validateToken now token s) = false
   ∧ (Map_get token s = None → validateToken now token s = (false, s, []))
   ∧ (truthy token = true →
        store_after (validateToken now token s) = Map_delete token s
        ∧ Map_get token (store_after (validateToken now token s)) = None))
  ∧ (∀ d, Map_get token s = Some d → truthy token = true →
          now = expiresAt d →
          validateToken now token s = (true, s, [])).
Proof.
  split.
  - intros Hcase. destruct token as [t|b].
    + simpl in *. destruct Hcase as [Hnone|(d & Hsome & Hexp)].
      * rewrite validateToken_absent by done.
        repeat split; [|done]. by rewrite delete_id.
      * split; [|split].
        -- destruct t as [|c t]; [done|].
           rewrite (validateToken_present now _ d) by done.
           by destruct (Z.gtb_spec now (expiresAt d)); [|lia].
        -- intros Hnone. congruence.
        -- intros Htruthy. destruct t as [|c t]; [done|].
           rewrite (validateToken_present now _ d) by done.
           destruct (Z.gtb_spec now (expiresAt d)); [|lia].
           split; [done|]. apply lookup_delete_eq.
    + rewrite validateToken_other. by repeat split.
  - intros d Hsome Htruthy Hnow. destruct token as [t|b]; [|done].
    simpl in Hsome. destruct t as [|c t]; [done|].
    rewrite (validateToken_present now _ d) by done.
    by destruct (Z.gtb_spec now (expiresAt d)); [lia|].
Qed.

Lemma validateToken_lazy_expiry_witness :
  (Map_get (JStr sample_token) one_session = None
   ∨ ∃ d, Map_get (JStr sample_token) one_session = Some d
          ∧ 28800001 > expiresAt d)
  ∧ answer (validateToken 28800001 (JStr sample_token) one_session) = false
  ∧ Map_get (JStr sample_token)
      (store_after (validateToken 28800001 (JStr sample_token) one_session))
    = None
  ∧ validateToken 28800000 (JStr sample_token) one_session
    = (true, one_session, []).
Proof.
  assert (Hsome : Map_get (JStr sample_token) one_session
    = Some {| createdAt := 0; expiresAt := 28800000; ip := sample_ip |})
    by (vm_compute; reflexivity).
  assert (Hexpired : Map_get (JStr sample_token) one_session = None
    ∨ ∃ d, Map_get (JStr sample_token) one_session = Some d
           ∧ 28800001 > expiresAt d).
  { right. eexists. split; [exact Hsome|]. simpl. lia. }
  split; [exact Hexpired|].
  destruct (validateToken_lazy_expiry 28800001 (JStr sample_token)
              one_session) as [Hpast _].
  destruct (Hpast Hexpired) as (Hfalse & _ & Hdel).
  split; [exact Hfalse|]. split; [by apply Hdel|].
  destruct (validateToken_lazy_expiry 28800000 (JStr sample_token)
              one_session) as [_ Hboundary].
  apply (Hboundary _ Hsome); reflexivity.
Defined.

(** ** Frame of [validateToken] *)

Lemma validateToken_store_cases now token s :
  store_after (validateToken now token s) = s
  ∨ store_after (validateToken now token s) = Map_delete token s.
Proof.
  destruct (validateToken_cases now token s)
    as [->|[(t & d & -> & _ & _ & ->)|(t & d & -> & _ & _ & _ & ->)]]; auto.
Qed.

Lemma validateToken_store_lookup now token s t' :
  store_after (validateToken now token s) !! t' = s !! t'
  ∨ (token = JStr t' ∧ store_after (validateToken now token s) !! t' = None).
Proof.
  destruct (validateToken_store_cases now token s) as [->| ->]; [by left|].
  destruct token as [t|b]; [|by left]. simpl.
  destruct (decide (t = t')) as [->|Hne].
  - right. split; [done|]. apply lookup_delete_eq.
  - left. by apply lookup_delete_ne.
Qed.

(** C10: [validateToken] leaves the map unchanged or deletes exactly the
    entry of its argument; at every key the entry afterwards is the entry
    before, except possibly at the argument, where it may be gone. *)
Theorem validateToken_frame now token s :
  (store_after (validateToken now token s) = s
   ∨ store_after (validateToken now token s) = Map_delete token s)
  ∧ ∀ t', store_after (validateToken now token s) !! t' = s !! t'
          ∨ (token = JStr t'
             ∧ store_after (validateToken now token s) !! t' = None).
Proof.
  split; [apply validateToken_store_cases|].
  intros t'. apply validateToken_store_lookup.
Qed.

(** ** The cleanup loop *)

(** An entry whose expiry equals the clock reading survives the loop. *)
Lemma sweep_keeps_entry_at_expiry :
  one_session !! sample_token
    = Some {| createdAt := 0; expiresAt := 28800000; ip := sample_ip |}
  ∧ 28800000 ≤ 28800000
  ∧ sweep 28800000 one_session !! sample_token
    = Some {| createdAt := 0; expiresAt := 28800000; ip := sample_ip |}.
Proof. repeat split; first [lia | vm_compute; reflexivity]. Qed.

(** C7 (amended): after the loop has run at clock reading [now], every
    remaining entry was in the map before, unchanged, and has
    [expiresAt >= now]; every entry with [expiresAt >= now] is still there,
    unchanged, and every entry with [expiresAt < now] is gone. *)
Theorem sweep_removes_expired now s t d :
  s !! t = Some d →
  (expiresAt d < now → sweep now s !! t = None)
  ∧ (now ≤ expiresAt d → sweep now s !! t = Some d)
  ∧ (∀ t' d', sweep now s !! t' = Some d' →
       s !! t' = Some d' ∧ now ≤ expiresAt d').
Proof.
  intros Hsome. rewrite sweep_lookup, Hsome.
  split; [|split].
  - intros Hlt. by destruct (Z.gtb_spec now (expiresAt d)); [|lia].
  - intros Hle. by destruct (Z.gtb_spec now (expiresAt d)); [lia|].
  - intros t' d'. rewrite sweep_lookup.
    destruct (s !! t') as [d0|]; [|done].
    destruct (Z.gtb_spec now (expiresAt d0)); [done|].
    intros [= ->]. split; [done|lia].
Qed.

Lemma sweep_removes_expired_witness :
  one_session !! sample_token
    = Some {| createdAt := 0; expiresAt := 28800000; ip := sample_ip |}
  ∧ sweep 28800001 one_session !! sample_token = None
  ∧ sweep 28800000 one_session !! sample_token
    = Some {| createdAt := 0; expiresAt := 28800000; ip := sample_ip |}.
Proof.
  assert (Hsome : one_session !! sample_token
    = Some {| createdAt := 0; expiresAt := 28800000; ip := sample_ip |})
    by (vm_compute; reflexivity).
  split; [exact Hsome|]. split.
  - destruct (sweep_removes_expired 28800001 one_session sample_token _ Hsome)
      as (Hgone & _ & _).
    apply Hgone. simpl. lia.
  - destruct (sweep_removes_expired 28800000 one_session sample_token _ Hsome)
      as (_ & Hkept & _).
    apply Hkept. simpl. lia.
Defined.

(** C8: at one clock reading, [validateToken] answers the same on the map
    as it is and on the map the cleanup loop leaves, and so does the
    [validate-token] endpoint. *)
Theorem sweep_does_not_change_validation now now' token s :
  answer (validateToken now token (sweep now s))
    = answer (validateToken now token s)
  ∧ answer (validate_token now now' token (sweep now s))
    = answer (validate_token now now' token s).
Proof.
  assert (Hrun : ∀ s0 : Store,
    validate_token now now' token s0 =
      if negb (truthy token) then (TokenRequired, s0, []) else
      match Map_get token s0 with
      | Some d => if now >? expiresAt d
                  then (TokenInvalid, Map_delete token s0, [])
                  else (TokenValid (expiresAt d) (expiresAt d - now'), s0, [])
      | None => (TokenInvalid, s0, [])
      end).
  { intros s0. unfold validate_token. destruct (truthy token) eqn:Htr; [|done].
    simpl. destruct token as [t|b].
    - destruct t as [|c t]; [done|]. simpl.
      destruct (s0 !! (c :: t)) as [d|] eqn:Hlook.
      + unfold mbind, handler_bind.
        rewrite (validateToken_present now _ d) by done.
        destruct (now >? expiresAt d); [done|].
        unfold get; simpl. by rewrite Hlook.
      + unfold mbind, handler_bind. by rewrite validateToken_absent.
    - unfold mbind, handler_bind. by rewrite validateToken_other. }
  split.
  - destruct token as [t|b]; [|by rewrite !validateToken_other].
    destruct t as [|c t]; [done|].
    pose proof (sweep_lookup now s (c :: t)) as Hsw.
    destruct (s !! (c :: t)) as [d|] eqn:Hlook.
    + rewrite (validateToken_present now _ d s) by done.
      destruct (now >? expiresAt d) eqn:Hgt.
      * by rewrite validateToken_absent.
      * rewrite (validateToken_present now _ d) by done. by rewrite Hgt.
    + by rewrite !validateToken_absent by done.
  - rewrite !Hrun. destruct (truthy token); [|done]. simpl.
    destruct token as [t|b]; [|done]. simpl.
    rewrite sweep_lookup. destruct (s !! t) as [d|]; [|done].
    destruct (now >? expiresAt d) eqn:Hgt; [done|]. by rewrite Hgt.
Qed.

(** ** Running [verify_pin] *)

Lemma verify_pin_not_four_chars sha env rnd now1 now2 req_ip pin s :
  is_string pin = false ∨ length (string_of pin) ≠ 4%nat →
  verify_pin sha env rnd now1 now2 req_ip pin s = (InvalidFormat, s, []).
Proof.
  intros [Hstr|Hlen]; unfold verify_pin.
  - destruct pin; [done|]. by rewrite orb_true_r.
  - apply Nat.eqb_neq in Hlen. rewrite Hlen. by rewrite orb_true_r.
Qed.

Lemma verify_pin_four_chars sha env rnd now1 now2 req_ip p s :
  length p = 4%nat →
  verify_pin sha env rnd now1 now2 req_ip (JStr p) s =
    if decide (hashPin sha env p = SUPERVISOR_PIN_HASH sha env)
    then (Authenticated (generateToken rnd) (now1 + TOKEN_EXPIRY_MS env)
            (TOKEN_EXPIRY_MS env),
          issue env rnd now1 now2 req_ip s,
          [Hashed (p ++ salt env); Logged (LogAuthenticated req_ip)])
    else (InvalidCredential, s,
          [Hashed (p ++ salt env); Logged (LogFailedAttempt req_ip)]).
Proof.
  intros Hlen. unfold verify_pin, string_of, is_string. rewrite Hlen.
  destruct p as [|c p]; [done|]. simpl.
  unfold call_hashPin; run_handler; simpl.
  by destruct (decide (hashPin sha env (c :: p) = SUPERVISOR_PIN_HASH sha env)).
Qed.

(** C2, at the input ["12a4"]: the handler does not answer [InvalidFormat];
    it hashes the input and answers by the comparison of the hashes, which
    is [InvalidCredential] under the default configuration. *)
Theorem verify_pin_12a4_is_hashed sha env rnd now1 now2 req_ip s :
  (answer (verify_pin sha env rnd now1 now2 req_ip (JStr (js "12a4")) s)
     = InvalidCredential
   ∨ answer (verify_pin sha env rnd now1 now2 req_ip (JStr (js "12a4")) s)
     = Authenticated (generateToken rnd) (now1 + TOKEN_EXPIRY_MS env)
         (TOKEN_EXPIRY_MS env))
  ∧ head (events (verify_pin sha env rnd now1 now2 req_ip (JStr (js "12a4")) s))
    = Some (Hashed (js "12a4" ++ salt env))
  ∧ verify_pin plain_digest default_env rnd now1 now2 req_ip
      (JStr (js "12a4")) s
    = (InvalidCredential, s,
       [Hashed (js "12a4cws-safety-2024"); Logged (LogFailedAttempt req_ip)]).
Proof.
  split; [|split].
  - rewrite verify_pin_four_chars by done. case_decide; auto.
  - rewrite verify_pin_four_chars by done. by case_decide.
  - rewrite verify_pin_four_chars by done. by vm_compute.
Qed.

(** ** PIN verification against the configured secret *)

(** C3: when the reference hash is the hash of a four-digit secret and
    [hashPin] is injective on four-digit inputs, the secret is answered
    with the generated token and its expiry, the session being stored under
    that token, and every other four-digit input is answered
    [InvalidCredential] with the map unchanged. *)
Theorem verify_pin_matches_secret sha env rnd now1 now2 req_ip s secret pin :
  four_digits secret = true →
  four_digits pin = true →
  SUPERVISOR_PIN_HASH sha env = hashPin sha env secret →
  (∀ p q, four_digits p = true → four_digits q = true →
          hashPin sha env p = hashPin sha env q → p = q) →
  (pin = secret →
     answer (verify_pin sha env rnd now1 now2 req_ip (JStr pin) s)
       = Authenticated (generateToken rnd) (now1 + TOKEN_EXPIRY_MS env)
           (TOKEN_EXPIRY_MS env)
     ∧ store_after (verify_pin sha env rnd now1 now2 req_ip (JStr pin) s)
         !! generateToken rnd
       = Some {| createdAt := now2; expiresAt := now1 + TOKEN_EXPIRY_MS env;
                 ip := req_ip |})
  ∧ (pin ≠ secret →
     answer (verify_pin sha env rnd now1 now2 req_ip (JStr pin) s)
       = InvalidCredential
     ∧ store_after (verify_pin sha env rnd now1 now2 req_ip (JStr pin) s) = s).
Proof.
  intros Hsecret Hpin Href Hinj.
  assert (Hlen : length pin = 4%nat).
  { apply andb_true_iff in Hpin as [Hlen _]. by apply Nat.eqb_eq. }
  rewrite verify_pin_four_chars by done. rewrite Href. split.
  - intros ->. rewrite decide_True by done. split; [done|].
    unfold store_after, issue; simpl. apply lookup_insert_eq.
  - intros Hne. rewrite decide_False; [done|].
    intros Heq. apply Hne. by apply Hinj.
Qed.

Lemma verify_pin_matches_secret_witness :
  answer (verify_pin plain_digest default_env sample_bytes 0 0 sample_ip
            (JStr (js "4698")) ∅)
    = Authenticated sample_token 28800000 28800000
  ∧ answer (verify_pin plain_digest default_env sample_bytes 0 0 sample_ip
              (JStr (js "0000")) ∅)
    = InvalidCredential.
Proof.
  assert (Hinj : ∀ p q, four_digits p = true → four_digits q = true →
            hashPin plain_digest default_env p
              = hashPin plain_digest default_env q → p = q).
  { intros p q _ _ Heq. unfold hashPin, plain_digest in Heq.
    by apply app_inv_tail in Heq. }
  split.
  - destruct (verify_pin_matches_secret plain_digest default_env sample_bytes
                0 0 sample_ip ∅ (js "4698") (js "4698")
                eq_refl eq_refl eq_refl Hinj) as [Hok _].
    destruct (Hok eq_refl) as [Hanswer _]. exact Hanswer.
  - destruct (verify_pin_matches_secret plain_digest default_env sample_bytes
                0 0 sample_ip ∅ (js "4698") (js "0000")
                eq_refl eq_refl eq_refl Hinj) as [_ Hbad].
    destruct (Hbad ltac:(discriminate)) as [Hanswer _]. exact Hanswer.
Defined.

(** ** A fresh token validates *)

Lemma length_toString_hex bytes :
  length (toString_hex bytes) = (2 * length bytes)%nat.
Proof. induction bytes as [|b bytes IH]; simpl; [done|]. rewrite IH. lia. Qed.

Lemma generateToken_nonempty rnd :
  length rnd = 32%nat → generateToken rnd ≠ [].
Proof.
  intros Hlen Hnil. apply (f_equal length) in Hnil.
  unfold generateToken in Hnil. rewrite length_toString_hex, Hlen in Hnil.
  discriminate.
Qed.

Lemma verify_pin_authenticated sha env rnd now1 now2 req_ip pin s tok e ttl s' ev :
  verify_pin sha env rnd now1 now2 req_ip pin s = (Authenticated tok e ttl, s', ev) →
  tok = generateToken rnd ∧ e = now1 + TOKEN_EXPIRY_MS env
  ∧ ttl = TOKEN_EXPIRY_MS env ∧ s' = issue env rnd now1 now2 req_ip s.
Proof.
  intros Hrun.
  destruct (decide (is_string pin = true ∧ length (string_of pin) = 4%nat))
    as [[Hstr Hlen]|Hbad].
  - destruct pin as [p|]; [|done]. simpl in Hlen.
    rewrite verify_pin_four_chars in Hrun by done.
    case_decide; by simplify_eq.
  - rewrite verify_pin_not_four_chars in Hrun; [done|].
    destruct (is_string pin); [right|by left]. naive_solver.
Qed.

(** On the map, a [verify_pin] request is the identity or an issue. *)
Lemma verify_pin_store sha env rnd now1 now2 req_ip pin s :
  store_after (verify_pin sha env rnd now1 now2 req_ip pin s) = s
  ∨ store_after (verify_pin sha env rnd now1 now2 req_ip pin s)
    = issue env rnd now1 now2 req_ip s.
Proof.
  destruct pin as [p|b].
  - destruct (decide (length p = 4%nat)) as [Hlen|Hlen].
    + rewrite verify_pin_four_chars by done. case_decide; auto.
    + rewrite verify_pin_not_four_chars; auto.
  - rewrite verify_pin_not_four_chars; auto.
Qed.

(** C4: when [verify_pin] answers with a token, with 32 random bytes drawn
    and a positive [TOKEN_EXPIRY_MS], a validation at the clock reading of
    the expiry computation answers [true], the session is in the map under
    the token, and the [validate-token] endpoint answers [valid: true] with
    the session's expiry and the full time to live remaining. *)
Theorem issued_token_validates
    sha env rnd now1 now2 req_ip pin s tok e ttl s' ev :
  length rnd = 32%nat →
  0 < TOKEN_EXPIRY_MS env →
  verify_pin sha env rnd now1 now2 req_ip pin s = (Authenticated tok e ttl, s', ev) →
  validateToken now1 (JStr tok) s' = (true, s', [])
  ∧ s' !! tok = Some {| createdAt := now2; expiresAt := e; ip := req_ip |}
  ∧ validate_token now1 now1 (JStr tok) s' = (TokenValid e ttl, s', []).
Proof.
  intros Hlen Hpos Hrun.
  apply verify_pin_authenticated in Hrun as (-> & -> & -> & ->).
  pose proof (generateToken_nonempty rnd Hlen) as Hne.
  assert (Hlook : issue env rnd now1 now2 req_ip s !! generateToken rnd
            = Some {| createdAt := now2;
                      expiresAt := now1 + TOKEN_EXPIRY_MS env;
                      ip := req_ip |})
    by apply lookup_insert_eq.
  assert (Hvalid : validateToken now1 (JStr (generateToken rnd))
                     (issue env rnd now1 now2 req_ip s)
                   = (true, issue env rnd now1 now2 req_ip s, [])).
  { rewrite (validateToken_present _ _ _ _ Hne Hlook); simpl.
    by destruct (Z.gtb_spec now1 (now1 + TOKEN_EXPIRY_MS env)); [lia|]. }
  split; [done|]. split; [done|].
  unfold validate_token.
  destruct (generateToken rnd) as [|c tok] eqn:Htok; [done|]. simpl.
  unfold mbind, handler_bind. rewrite Hvalid.
  unfold get; simpl. rewrite Hlook; simpl.
  unfold mret, handler_ret. do 3 f_equal. lia.
Qed.

Lemma issued_token_validates_witness :
  validateToken 0 (JStr sample_token) one_session = (true, one_session, [])
  ∧ validate_token 0 0 (JStr sample_token) one_session
    = (TokenValid 28800000 28800000, one_session, []).
Proof.
  destruct (issued_token_validates plain_digest default_env sample_bytes 0 0
              sample_ip (JStr (js "4698")) ∅ sample_token 28800000 28800000
              one_session
              [Hashed (js "4698cws-safety-2024");
               Logged (LogAuthenticated sample_ip)]
              eq_refl eq_refl)
    as (Hvalid & _ & Hendpoint).
  - by vm_compute.
  - by split.
Defined.

(** ** Logout *)

Lemma logout_run token s :
  logout token s =
    if truthy token && Map_has token s
    then (LoggedOut, Map_delete token s, [Logged LogTokenInvalidated])
    else (LoggedOut, s, []).
Proof.
  unfold logout; run_handler. destruct (truthy token); [|done]. simpl.
  by destruct (match Map_get token s with Some _ => true | None => false end).
Qed.

Lemma revoke_delete token s :
  revoke token s = if truthy token then Map_delete token s else s.
Proof.
  unfold revoke. rewrite logout_run.
  destruct (truthy token) eqn:Htr; [|done].
  destruct (Map_has token s) eqn:Hhas; [reflexivity|]. simpl.
  destruct token as [t|b]; [|done]. unfold store_after; simpl.
  symmetry. apply delete_id.
  unfold Map_has in Hhas; simpl in Hhas. by destruct (s !! t).
Qed.

(** C6: for every value of the [token] field and every map, [logout]
    answers the one success response (status 200), the same for any other
    value and map, and revoking twice leaves the map that revoking once
    leaves. *)
Theorem logout_idempotent token s token' s' :
  answer (logout token s) = LoggedOut
  ∧ status (answer (logout token s)) = 200
  ∧ success (answer (logout token s)) = true
  ∧ answer (logout token s) = answer (logout token' s')
  ∧ revoke token (revoke token s) = revoke token s.
Proof.
  assert (Hans : ∀ k m, answer (logout k m) = LoggedOut).
  { intros k m. rewrite logout_run. by destruct (truthy k && Map_has k m). }
  rewrite !Hans. repeat split.
  rewrite !revoke_delete. destruct (truthy token); [|done].
  destruct token as [t|b]; [|done]. simpl.
  apply delete_id, lookup_delete_eq.
Qed.

(** ** Operation sequences *)

(** Every entry after an operation is an entry from before, unchanged, or
    the session the operation has just stored. *)
Lemma apply_op_lookup env op s t d :
  apply_op env op s !! t = Some d →
  s !! t = Some d
  ∨ ∃ rnd now1 now2 req_ip,
      op = OpIssue rnd now1 now2 req_ip ∧ t = generateToken rnd
      ∧ d = {| createdAt := now2; expiresAt := now1 + TOKEN_EXPIRY_MS env;
               ip := req_ip |}.
Proof.
  destruct op as [rnd now1 now2 req_ip|now token|token|now]; simpl.
  - unfold issue. rewrite lookup_insert. case_decide as Heq.
    + intros [= <-]. right. by exists rnd, now1, now2, req_ip.
    + by left.
  - destruct (validateToken_store_lookup now token s t) as [->|[_ ->]];
      [by left|done].
  - rewrite revoke_delete. destruct (truthy token); [|by left].
    destruct token as [t'|b]; simpl; [|by left].
    rewrite lookup_delete. case_decide; [done|by left].
  - rewrite sweep_lookup. destruct (s !! t) as [d0|]; [|done].
    destruct (now >? expiresAt d0); [done|by left].
Qed.

Lemma run_ops_absent env ops : ∀ s t,
  Forall (λ op, issues op ≠ Some t) ops →
  s !! t = None → run_ops env ops s !! t = None.
Proof.
  induction ops as [|op ops IH]; intros s t Hops Hnone; simpl; [done|].
  apply Forall_cons in Hops as [Hop Hops].
  apply IH; [done|].
  destruct (apply_op env op s !! t) as [d|] eqn:Hlook; [|done].
  apply apply_op_lookup in Hlook
    as [Hold|(rnd & now1 & now2 & req_ip & -> & -> & _)]; [congruence|].
  by destruct Hop.
Qed.

(** ** Revocation *)

(** C5: once [logout] has revoked a token, [validateToken] answers [false]
    for it at every clock reading, after any further validations,
    revocations, cleanups and issues of other tokens. *)
Theorem revoked_token_stays_invalid env t s ops now :
  Forall (λ op, issues op ≠ Some t) ops →
  answer (validateToken now (JStr t) (run_ops env ops (revoke (JStr t) s)))
    = false.
Proof.
  intros Hops. destruct t as [|c t]; [done|].
  rewrite validateToken_absent; [done|].
  apply run_ops_absent; [done|].
  rewrite revoke_delete. simpl. apply lookup_delete_eq.
Qed.

Lemma revoked_token_stays_invalid_witness :
  answer (validateToken 30 (JStr sample_token) one_session) = true
  ∧ answer (validateToken 30 (JStr sample_token)
              (revoke (JStr sample_token) one_session)) = false
  ∧ answer (validateToken 30 (JStr sample_token)
              (run_ops default_env
                 [OpSweep 5; OpIssue other_bytes 10 10 sample_ip;
                  OpValidate 20 (JStr sample_token)]
                 (revoke (JStr sample_token) one_session))) = false.
Proof.
  split; [by vm_compute|]. split.
  - apply (revoked_token_stays_invalid default_env sample_token one_session
             [] 30). constructor.
  - apply (revoked_token_stays_invalid default_env sample_token one_session
             [OpSweep 5; OpIssue other_bytes 10 10 sample_ip;
              OpValidate 20 (JStr sample_token)] 30).
    repeat constructor; simpl; discriminate.
Defined.

(** ** Expiry after creation *)

(** With [TOKEN_EXPIRY_MS=-1000] configured, the stored session expires
    before it was created. *)
Lemma negative_ttl_session :
  TOKEN_EXPIRY_MS negative_ttl_env = -1000
  ∧ store_after
      (verify_pin plain_digest negative_ttl_env sample_bytes 5000 5000
         sample_ip (JStr (js "4698")) ∅) !! sample_token
    = Some {| createdAt := 5000; expiresAt := 4000; ip := sample_ip |}
  ∧ ¬ (4000 > 5000).
Proof. split; [done|]. split; [by vm_compute|lia]. Qed.

(** With [TOKEN_EXPIRY_MS=1] and one millisecond between the two clock
    readings of the handler, the stored session expires at the instant of
    its creation, not after it. *)
Lemma one_ms_ttl_session :
  TOKEN_EXPIRY_MS one_ms_ttl_env = 1
  ∧ store_after
      (verify_pin plain_digest one_ms_ttl_env sample_bytes 5000 5001
         sample_ip (JStr (js "4698")) ∅) !! sample_token
    = Some {| createdAt := 5001; expiresAt := 5001; ip := sample_ip |}
  ∧ ¬ (5001 > 5001).
Proof. split; [done|]. split; [vm_compute; reflexivity|lia]. Qed.

(** C9 (amended): the session a successful [verify_pin] stores has
    [createdAt] equal to the second clock reading and [expiresAt] equal to
    the first one plus [TOKEN_EXPIRY_MS], so it has
    [expiresAt > createdAt] exactly when the time elapsed between the two
    readings is shorter than the time to live, and [expiresAt < createdAt]
    when the time to live is negative and the clock has not run
    backwards. Along every sequence of issues, validations, revocations
    and cleanups in which each issue meets that condition (as it does,
    for a positive time to live, when its two readings agree), every
    session of the map has [expiresAt > createdAt]; validations,
    revocations and cleanups never add a session or change the fields of
    one, and an issue writes only the entry under the token it draws. *)
Theorem sessions_expire_after_creation env :
  (∀ sha rnd now1 now2 req_ip pin s tok e ttl s' ev,
     verify_pin sha env rnd now1 now2 req_ip pin s
       = (Authenticated tok e ttl, s', ev) →
     ∃ d, s' !! tok = Some d
          ∧ createdAt d = now2
          ∧ expiresAt d = now1 + TOKEN_EXPIRY_MS env
          ∧ (expiresAt d > createdAt d ↔ now2 - now1 < TOKEN_EXPIRY_MS env)
          ∧ (TOKEN_EXPIRY_MS env < 0 → now1 ≤ now2 →
             expiresAt d < createdAt d))
  ∧ (∀ ops s, store_inv s → Forall (issue_in_time env) ops →
              store_inv (run_ops env ops s))
  ∧ (0 < TOKEN_EXPIRY_MS env →
     ∀ ops s, store_inv s → Forall issue_at_one_instant ops →
              store_inv (run_ops env ops s))
  ∧ (∀ op s t d, apply_op env op s !! t = Some d → issues op ≠ Some t →
                 s !! t = Some d).
Proof.
  assert (Hseq : ∀ ops s, store_inv s → Forall (issue_in_time env) ops →
                          store_inv (run_ops env ops s)).
  { intros ops s Hinv Hops. revert s Hinv.
    induction Hops as [|op ops Hop _ IH]; intros s Hinv; [done|].
    simpl. apply IH. intros t d Hlook.
    apply apply_op_lookup in Hlook
      as [Hold|(rnd & now1 & now2 & req_ip & -> & -> & ->)];
      [by eapply Hinv|].
    simpl in *. lia. }
  split; [|split; [exact Hseq|split]].
  - intros sha rnd now1 now2 req_ip pin s tok e ttl s' ev Hrun.
    apply verify_pin_authenticated in Hrun as (-> & -> & -> & ->).
    eexists. split; [apply lookup_insert_eq|]. simpl.
    repeat split; lia.
  - intros Hpos ops s Hinv Hops. apply Hseq; [done|].
    eapply Forall_impl; [exact Hops|].
    intros [rnd now1 now2 req_ip| | |]; simpl; [|done..].
    intros ->. lia.
  - intros op s t d Hafter Hop.
    apply apply_op_lookup in Hafter
      as [Hold|(rnd & now1 & now2 & req_ip & -> & -> & _)]; [done|].
    by destruct Hop.
Qed.

Lemma sessions_expire_after_creation_witness :
  store_inv
    (run_ops default_env
       [OpIssue sample_bytes 0 0 sample_ip; OpValidate 7 (JStr sample_token);
        OpIssue other_bytes 10 12 sample_ip; OpSweep 28800001;
        OpRevoke (JStr sample_token)] ∅)
  ∧ ∃ d, one_session !! sample_token = Some d
         ∧ createdAt d = 0 ∧ expiresAt d = 28800000
         ∧ expiresAt d > createdAt d.
Proof.
  destruct (sessions_expire_after_creation default_env)
    as (Hissue & Hseq & _ & _).
  split.
  - apply Hseq.
    + intros t d Hlook. by rewrite lookup_empty in Hlook.
    + repeat constructor; simpl; lia.
  - destruct (Hissue plain_digest sample_bytes 0 0 sample_ip
                (JStr (js "4698")) ∅ sample_token 28800000 28800000
                one_session
                [Hashed (js "4698cws-safety-2024");
                 Logged (LogAuthenticated sample_ip)])
      as (d & Hlook & Hcreated & Hexpires & Hiff & _).
    + vm_compute; reflexivity.
    + exists d. split; [exact Hlook|]. split; [exact Hcreated|].
      split; [rewrite Hexpires; reflexivity|]. apply Hiff. reflexivity.
Defined.

(** * Further properties of the authentication block *)

(** ** Token text *)

Lemma hex_digit_inj n m : hex_digit n = hex_digit m → n = m.
Proof.
  unfold hex_digit.
  destruct (N.ltb_spec n 10), (N.ltb_spec m 10); lia.
Qed.

Lemma hex_digit_nibble n : (n < 16)%N → is_hex_char (hex_digit n) = true.
Proof.
  intros Hn. unfold is_hex_char, hex_digit.
  destruct (N.ltb_spec n 10).
  - apply orb_true_iff. left. apply andb_true_iff.
    split; apply N.leb_le; lia.
  - apply orb_true_iff. right. apply andb_true_iff.
    split; apply N.leb_le; lia.
Qed.

Lemma hex_byte_inj b b' : hex_byte b = hex_byte b' → b = b'.
Proof.
  unfold hex_byte. intros [= Hhi Hlo].
  apply hex_digit_inj in Hhi, Hlo.
  rewrite (N.div_mod b 16), (N.div_mod b' 16) by lia. congruence.
Qed.

(** X1: the token of 32 random bytes is 64 characters long, each one of
    [0-9a-f]. *)
Theorem generateToken_shape rnd :
  length rnd = 32%nat →
  forallb is_byte rnd = true →
  length (generateToken rnd) = 64%nat
  ∧ forallb is_hex_char (generateToken rnd) = true.
Proof.
  intros Hlen Hbytes. unfold generateToken. split.
  - rewrite length_toString_hex, Hlen. done.
  - clear Hlen. induction rnd as [|b rnd IH]; [done|].
    simpl in Hbytes. apply andb_true_iff in Hbytes as [Hb Hrest].
    apply N.ltb_lt in Hb. simpl.
    rewrite !hex_digit_nibble, IH; [done..| |].
    + apply N.mod_lt. lia.
    + apply N.Div0.div_lt_upper_bound. lia.
Qed.

Lemma generateToken_shape_witness :
  length (generateToken sample_bytes) = 64%nat
  ∧ forallb is_hex_char (generateToken sample_bytes) = true.
Proof. exact (generateToken_shape sample_bytes eq_refl eq_refl). Defined.

Lemma toString_hex_inj bytes bytes' :
  toString_hex bytes = toString_hex bytes' → bytes = bytes'.
Proof.
  revert bytes'.
  induction bytes as [|b bytes IH]; intros [|b' bytes'] Heq; try done.
  simpl in Heq. injection Heq as Hhi Hlo Hrest.
  f_equal; [|by apply IH].
  apply hex_byte_inj. unfold hex_byte. congruence.
Qed.

(** X2: the hexadecimal text determines the bytes, so two draws that
    differ give two tokens that differ. *)
Theorem generateToken_inj rnd rnd' :
  generateToken rnd = generateToken rnd' → rnd = rnd'.
Proof. unfold generateToken. apply toString_hex_inj. Qed.

Lemma generateToken_inj_witness : sample_bytes = sample_bytes.
Proof. exact (generateToken_inj sample_bytes sample_bytes eq_refl). Defined.

(** ** The window in which a token validates *)

Lemma validateToken_answer now t s :
  t ≠ [] →
  answer (validateToken now (JStr t) s) =
    match s !! t with
    | Some d => negb (now >? expiresAt d)
    | None => false
    end.
Proof.
  intros Hne. destruct (s !! t) as [d|] eqn:Hlook.
  - rewrite (validateToken_present now _ d) by done.
    by destruct (now >? expiresAt d).
  - by rewrite validateToken_absent.
Qed.

(** X3: on the map a successful [verify_pin] leaves, the token validates
    exactly at the clock readings up to and including
    [now1 + TOKEN_EXPIRY_MS], the expiry the answer carries. *)
Theorem issued_token_window
    sha env rnd now1 now2 req_ip pin s tok e ttl s' ev now :
  length rnd = 32%nat →
  verify_pin sha env rnd now1 now2 req_ip pin s = (Authenticated tok e ttl, s', ev) →
  e = now1 + TOKEN_EXPIRY_MS env
  ∧ (answer (validateToken now (JStr tok) s') = true ↔ now ≤ e).
Proof.
  intros Hlen Hrun.
  apply verify_pin_authenticated in Hrun as (-> & -> & -> & ->).
  split; [done|].
  pose proof (generateToken_nonempty rnd Hlen) as Hne.
  rewrite validateToken_answer by done.
  unfold issue. rewrite lookup_insert_eq. simpl.
  destruct (Z.gtb_spec now (now1 + TOKEN_EXPIRY_MS env)); simpl; split;
    first [done | lia].
Qed.

Lemma issued_token_window_witness :
  answer (validateToken 28800000 (JStr sample_token) one_session) = true
  ∧ ¬ answer (validateToken 28800001 (JStr sample_token) one_session) = true.
Proof.
  assert (Hrun : verify_pin plain_digest default_env sample_bytes 0 0 sample_ip
            (JStr (js "4698")) ∅
          = (Authenticated sample_token 28800000 28800000, one_session,
             [Hashed (js "4698cws-safety-2024");
              Logged (LogAuthenticated sample_ip)]))
    by (vm_compute; reflexivity).
  split.
  - apply (issued_token_window plain_digest default_env sample_bytes 0 0
             sample_ip (JStr (js "4698")) ∅ sample_token 28800000 28800000
             one_session _ 28800000 eq_refl Hrun).
    lia.
  - intros Hvalid.
    apply (issued_token_window plain_digest default_env sample_bytes 0 0
             sample_ip (JStr (js "4698")) ∅ sample_token 28800000 28800000
             one_session _ 28800001 eq_refl Hrun) in Hvalid.
    lia.
Defined.

(** X4: with a negative [TOKEN_EXPIRY_MS] the PIN is still answered with a
    token, but that token validates at no clock reading from the one of
    its issue onwards. *)
Theorem negative_ttl_token_never_validates
    sha env rnd now1 now2 req_ip pin s tok e ttl s' ev now :
  TOKEN_EXPIRY_MS env < 0 →
  now1 ≤ now →
  verify_pin sha env rnd now1 now2 req_ip pin s = (Authenticated tok e ttl, s', ev) →
  answer (validateToken now (JStr tok) s') = false.
Proof.
  intros Hneg Hnow Hrun.
  apply verify_pin_authenticated in Hrun as (-> & -> & -> & ->).
  destruct (decide (generateToken rnd = [])) as [->|Hne]; [done|].
  rewrite validateToken_answer by done.
  unfold issue. rewrite lookup_insert_eq. simpl.
  by destruct (Z.gtb_spec now (now1 + TOKEN_EXPIRY_MS env)); [|lia].
Qed.

Lemma negative_ttl_token_never_validates_witness :
  answer (verify_pin plain_digest negative_ttl_env sample_bytes 5000 5000
            sample_ip (JStr (js "4698")) ∅)
    = Authenticated sample_token 4000 (-1000)
  ∧ answer (validateToken 5000 (JStr sample_token)
              (store_after
                 (verify_pin plain_digest negative_ttl_env sample_bytes
                    5000 5000 sample_ip (JStr (js "4698")) ∅))) = false.
Proof.
  split; [vm_compute; reflexivity|].
  apply (negative_ttl_token_never_validates plain_digest negative_ttl_env
           sample_bytes 5000 5000 sample_ip (JStr (js "4698")) ∅
           sample_token 4000 (-1000) _
           [Hashed (js "4698cws-safety-2024");
            Logged (LogAuthenticated sample_ip)] 5000).
  - vm_compute; reflexivity.
  - lia.
  - vm_compute; reflexivity.
Defined.

(** X5: on one map, a token rejected at one clock reading is rejected at
    every later one. *)
Theorem validateToken_rejects_later now now' token s :
  now ≤ now' →
  answer (validateToken now token s) = false →
  answer (validateToken now' token s) = false.
Proof.
  intros Hle. destruct token as [t|b]; [|by rewrite !validateToken_other].
  destruct (decide (t = [])) as [->|Hne]; [done|].
  rewrite !validateToken_answer by done.
  destruct (s !! t) as [d|]; [|done].
  destruct (Z.gtb_spec now (expiresAt d)), (Z.gtb_spec now' (expiresAt d));
    simpl; first [done | lia].
Qed.

Lemma validateToken_rejects_later_witness :
  answer (validateToken 28800001 (JStr sample_token) one_session) = false
  ∧ answer (validateToken 30000000 (JStr sample_token) one_session) = false.
Proof.
  assert (Hfirst :
    answer (validateToken 28800001 (JStr sample_token) one_session) = false)
    by (vm_compute; reflexivity).
  split; [exact Hfirst|].
  apply (validateToken_rejects_later 28800001 30000000 _ _ ltac:(lia) Hfirst).
Defined.

(** X6: a second validation at the same clock reading gives the answer of
    the first and changes nothing more. *)
Theorem validateToken_twice now token s :
  validateToken now token (store_after (validateToken now token s))
  = (answer (validateToken now token s),
     store_after (validateToken now token s), []).
Proof.
  destruct (validateToken_cases now token s)
    as [Hrun|[(t & d & -> & Hsome & Hexp & Hrun)
             |(t & d & -> & Hne & Hsome & Hlive & Hrun)]];
    rewrite Hrun; unfold answer, store_after; simpl.
  - done.
  - apply validateToken_absent, lookup_delete_eq.
  - done.
Qed.

(** ** Composing cleanups and revocations *)

Lemma revoke_lookup token s t :
  revoke token s !! t =
    if bool_decide (token = JStr t ∧ t ≠ []) then None else s !! t.
Proof.
  rewrite revoke_delete. destruct token as [[|c t']|b]; simpl.
  - rewrite bool_decide_eq_false_2; [done|]. by intros [[= <-] ?].
  - rewrite lookup_delete. case_decide as Heq.
    + subst t. by rewrite bool_decide_eq_true_2.
    + rewrite bool_decide_eq_false_2; [done|]. intros [[= ?] _]. by apply Heq.
  - by destruct b.
Qed.

(** X7: a cleanup at a later clock reading absorbs an earlier one; in
    particular, running the cleanup twice at one reading is running it
    once. *)
Theorem sweep_absorbs_earlier now1 now2 s :
  now1 ≤ now2 → sweep now2 (sweep now1 s) = sweep now2 s.
Proof.
  intros Hle. apply map_eq. intros t. rewrite !sweep_lookup.
  destruct (s !! t) as [d|]; [|done].
  destruct (Z.gtb_spec now1 (expiresAt d)); [|done].
  by destruct (Z.gtb_spec now2 (expiresAt d)); [|lia].
Qed.

Lemma sweep_absorbs_earlier_witness :
  sweep 28800001 (sweep 5 one_session) = sweep 28800001 one_session.
Proof. apply (sweep_absorbs_earlier 5 28800001 one_session). lia. Defined.

(** X8: when no session of the map is past its expiry, the cleanup leaves
    the map exactly as it is. *)
Theorem sweep_nothing_expired now s :
  (∀ t d, s !! t = Some d → now ≤ expiresAt d) → sweep now s = s.
Proof.
  intros Hlive. apply map_eq. intros t. rewrite sweep_lookup.
  destruct (s !! t) as [d|] eqn:Hlook; [|done].
  specialize (Hlive t d Hlook).
  by destruct (Z.gtb_spec now (expiresAt d)); [lia|].
Qed.

Lemma sweep_nothing_expired_witness : sweep 7 one_session = one_session.
Proof.
  assert (Hone : one_session
    = <[sample_token :=
          {| createdAt := 0; expiresAt := 28800000; ip := sample_ip |}]> ∅)
    by (vm_compute; reflexivity).
  apply (sweep_nothing_expired 7 one_session).
  intros t d Hlook. rewrite Hone in Hlook.
  apply lookup_insert_Some in Hlook as [[_ <-]|[_ Hempty]]; [simpl; lia|].
  by rewrite lookup_empty in Hempty.
Defined.

(** X9: cleanup and revocation commute. *)
Theorem sweep_revoke_commute now token s :
  sweep now (revoke token s) = revoke token (sweep now s).
Proof.
  apply map_eq. intros t.
  rewrite sweep_lookup, !revoke_lookup, sweep_lookup.
  by case_bool_decide.
Qed.

(** X10: every session the cleanup leaves under a non-empty token
    validates at the clock reading of the cleanup. *)
Theorem sweep_leaves_valid now s t d :
  t ≠ [] →
  sweep now s !! t = Some d →
  validateToken now (JStr t) (sweep now s) = (true, sweep now s, []).
Proof.
  intros Hne Hlook.
  rewrite (validateToken_present now t d) by done.
  rewrite sweep_lookup in Hlook.
  destruct (s !! t) as [d0|]; [|done].
  destruct (now >? expiresAt d0) eqn:Hgt; [done|].
  injection Hlook as <-. by rewrite Hgt.
Qed.

Lemma sweep_leaves_valid_witness :
  answer (validateToken 100 (JStr sample_token) (sweep 100 one_session))
  = true.
Proof.
  rewrite (sweep_leaves_valid 100 one_session sample_token
             {| createdAt := 0; expiresAt := 28800000; ip := sample_ip |}).
  - reflexivity.
  - discriminate.
  - vm_compute; reflexivity.
Defined.

(** X11: revoking one token changes neither the entry nor the validation
    of any other token. *)
Theorem revoke_other_token now token t s :
  token ≠ JStr t →
  revoke token s !! t = s !! t
  ∧ answer (validateToken now (JStr t) (revoke token s))
    = answer (validateToken now (JStr t) s).
Proof.
  intros Hne.
  assert (Hlook : revoke token s !! t = s !! t).
  { rewrite revoke_lookup. rewrite bool_decide_eq_false_2; [done|].
    by intros [? _]. }
  split; [done|].
  destruct (decide (t = [])) as [->|Ht]; [done|].
  rewrite !validateToken_answer by done. by rewrite Hlook.
Qed.

Lemma revoke_other_token_witness :
  revoke (JStr (generateToken other_bytes)) one_session !! sample_token
    = one_session !! sample_token
  ∧ answer (validateToken 100 (JStr sample_token)
              (revoke (JStr (generateToken other_bytes)) one_session))
    = answer (validateToken 100 (JStr sample_token) one_session).
Proof.
  apply (revoke_other_token 100 (JStr (generateToken other_bytes))
           sample_token one_session).
  intros Heq. vm_compute in Heq. discriminate.
Defined.

(** X12: two revocations commute. *)
Theorem revoke_commute token token' s :
  revoke token (revoke token' s) = revoke token' (revoke token s).
Proof.
  apply map_eq. intros t. rewrite !revoke_lookup.
  by repeat case_bool_decide.
Qed.

(** ** What [verify_pin] does and never does *)

(** X13: [verify_pin] answers [InvalidFormat] exactly when the [pin] field
    is not a string of four code units, and then computes no hash, writes
    no console line and leaves the map as it is. *)
Theorem verify_pin_format sha env rnd now1 now2 req_ip pin s :
  (answer (verify_pin sha env rnd now1 now2 req_ip pin s) = InvalidFormat
   ↔ ¬ ∃ p, pin = JStr p ∧ length p = 4%nat)
  ∧ (answer (verify_pin sha env rnd now1 now2 req_ip pin s) = InvalidFormat →
     verify_pin sha env rnd now1 now2 req_ip pin s = (InvalidFormat, s, [])).
Proof.
  destruct pin as [p|b].
  - destruct (decide (length p = 4%nat)) as [Hlen|Hlen].
    + rewrite verify_pin_four_chars by done.
      split; [split|]; [by case_decide| |by case_decide].
      intros []. by exists p.
    + rewrite verify_pin_not_four_chars by auto.
      split; [|done]. split; [|done]. by intros _ (? & [= <-] & ?).
  - rewrite verify_pin_not_four_chars by auto.
    split; [|done]. split; [|done]. by intros _ (? & ? & _).
Qed.

(** X14: [verify_pin] gives one of three answers. A rejected attempt
    leaves the map as it is; an attempt that reaches the comparison hashes
    [pin + salt] once and then writes one console line with the requesting
    address; only a success stores a session, under the token it answers
    with. *)
Theorem verify_pin_effects sha env rnd now1 now2 req_ip pin s :
  match answer (verify_pin sha env rnd now1 now2 req_ip pin s) with
  | InvalidFormat =>
      store_after (verify_pin sha env rnd now1 now2 req_ip pin s) = s
      ∧ events (verify_pin sha env rnd now1 now2 req_ip pin s) = []
  | InvalidCredential =>
      store_after (verify_pin sha env rnd now1 now2 req_ip pin s) = s
      ∧ events (verify_pin sha env rnd now1 now2 req_ip pin s)
        = [Hashed (string_of pin ++ salt env);
           Logged (LogFailedAttempt req_ip)]
  | Authenticated tok e ttl =>
      tok = generateToken rnd
      ∧ e = now1 + TOKEN_EXPIRY_MS env
      ∧ ttl = TOKEN_EXPIRY_MS env
      ∧ store_after (verify_pin sha env rnd now1 now2 req_ip pin s)
        = <[tok := {| createdAt := now2; expiresAt := e; ip := req_ip |}]> s
      ∧ events (verify_pin sha env rnd now1 now2 req_ip pin s)
        = [Hashed (string_of pin ++ salt env);
           Logged (LogAuthenticated req_ip)]
  | _ => False
  end.
Proof.
  destruct pin as [p|b].
  - destruct (decide (length p = 4%nat)) as [Hlen|Hlen].
    + rewrite verify_pin_four_chars by done. by case_decide.
    + by rewrite verify_pin_not_four_chars by auto.
  - by rewrite verify_pin_not_four_chars by auto.
Qed.

(** X15: a PIN request changes neither the entry nor the validation of
    any token other than the one it draws. *)
Theorem verify_pin_keeps_other_sessions
    sha env rnd now1 now2 req_ip pin s t now :
  t ≠ generateToken rnd →
  store_after (verify_pin sha env rnd now1 now2 req_ip pin s) !! t = s !! t
  ∧ answer (validateToken now (JStr t)
              (store_after (verify_pin sha env rnd now1 now2 req_ip pin s)))
    = answer (validateToken now (JStr t) s).
Proof.
  intros Hne.
  assert (Hlook :
    store_after (verify_pin sha env rnd now1 now2 req_ip pin s) !! t = s !! t).
  { destruct (verify_pin_store sha env rnd now1 now2 req_ip pin s)
      as [->| ->]; [done|].
    unfold issue. by rewrite lookup_insert_ne. }
  split; [done|].
  destruct (decide (t = [])) as [->|Ht]; [done|].
  rewrite !validateToken_answer by done. by rewrite Hlook.
Qed.

Lemma verify_pin_keeps_other_sessions_witness :
  answer (validateToken 100 (JStr sample_token)
            (store_after
               (verify_pin plain_digest default_env other_bytes 50 50
                  sample_ip (JStr (js "4698")) one_session)))
  = answer (validateToken 100 (JStr sample_token) one_session).
Proof.
  apply (verify_pin_keeps_other_sessions plain_digest default_env other_bytes
           50 50 sample_ip (JStr (js "4698")) one_session sample_token 100).
  intros Heq. vm_compute in Heq. discriminate.
Defined.

(** X16: two successful PIN requests with different random draws leave two
    sessions under two different tokens, the first one untouched by the
    second. *)
Theorem two_logins_two_sessions
    sha env rnd rnd' now1 now2 now1' now2' req_ip req_ip' pin pin'
    s tok e ttl s1 ev tok' e' ttl' s2 ev' :
  rnd ≠ rnd' →
  verify_pin sha env rnd now1 now2 req_ip pin s
    = (Authenticated tok e ttl, s1, ev) →
  verify_pin sha env rnd' now1' now2' req_ip' pin' s1
    = (Authenticated tok' e' ttl', s2, ev') →
  tok ≠ tok'
  ∧ s2 !! tok = Some {| createdAt := now2; expiresAt := e; ip := req_ip |}
  ∧ s2 !! tok'
    = Some {| createdAt := now2'; expiresAt := e'; ip := req_ip' |}.
Proof.
  intros Hdraw Hfirst Hsecond.
  apply verify_pin_authenticated in Hfirst as (-> & -> & -> & ->).
  apply verify_pin_authenticated in Hsecond as (-> & -> & -> & ->).
  assert (Hne : generateToken rnd ≠ generateToken rnd').
  { intros Heq. by apply Hdraw, toString_hex_inj. }
  split; [done|]. unfold issue. split.
  - rewrite lookup_insert_ne by done. apply lookup_insert_eq.
  - apply lookup_insert_eq.
Qed.

Lemma two_logins_two_sessions_witness :
  sample_token ≠ generateToken other_bytes.
Proof.
  assert (Hdraw : sample_bytes ≠ other_bytes) by discriminate.
  destruct (two_logins_two_sessions plain_digest default_env
              sample_bytes other_bytes 0 0 50 50 sample_ip sample_ip
              (JStr (js "4698")) (JStr (js "4698")) ∅
              _ _ _ _ _ _ _ _ _ _ Hdraw eq_refl eq_refl) as [Hne _].
  exact Hne.
Defined.

(** X17: when no reference hash is configured, the built-in PIN ["4698"]
    is answered with a token under every digest function, salt and time to
    live. *)
Theorem default_pin_authenticates sha env rnd now1 now2 req_ip s :
  env_SUPERVISOR_PIN_HASH env = None
  ∨ env_SUPERVISOR_PIN_HASH env = Some [] →
  answer (verify_pin sha env rnd now1 now2 req_ip (JStr (js "4698")) s)
  = Authenticated (generateToken rnd) (now1 + TOKEN_EXPIRY_MS env)
      (TOKEN_EXPIRY_MS env).
Proof.
  intros Hunset. rewrite verify_pin_four_chars by done.
  rewrite decide_True; [done|].
  unfold SUPERVISOR_PIN_HASH. by destruct Hunset as [-> | ->].
Qed.

Lemma default_pin_authenticates_witness :
  answer (verify_pin plain_digest negative_ttl_env sample_bytes 0 0 sample_ip
            (JStr (js "4698")) ∅)
  = Authenticated sample_token (-1000) (-1000).
Proof.
  exact (default_pin_authenticates plain_digest negative_ttl_env sample_bytes
           0 0 sample_ip ∅ (or_introl eq_refl)).
Defined.

(** ** The [validate-token] endpoint *)

Lemma validate_token_run now1 now2 token s :
  validate_token now1 now2 token s =
    if negb (truthy token) then (TokenRequired, s, []) else
    match Map_get token s with
    | Some d => if now1 >? expiresAt d
                then (TokenInvalid, Map_delete token s, [])
                else (TokenValid (expiresAt d) (expiresAt d - now2), s, [])
    | None => (TokenInvalid, s, [])
    end.
Proof.
  unfold validate_token. destruct (truthy token) eqn:Htr; [|done].
  simpl. destruct token as [t|b].
  - destruct t as [|c t]; [done|]. simpl.
    destruct (s !! (c :: t)) as [d|] eqn:Hlook.
    + unfold mbind, handler_bind.
      rewrite (validateToken_present now1 _ d) by done.
      destruct (now1 >? expiresAt d); [done|].
      unfold get; simpl. by rewrite Hlook.
    + unfold mbind, handler_bind. by rewrite validateToken_absent.
  - unfold mbind, handler_bind. by rewrite validateToken_other.
Qed.

(** X18: the endpoint never reaches its [catch] arm. It answers status 400
    exactly for a missing (falsy) token; it answers [valid: true] exactly
    when [validateToken] accepts, with the stored expiry, with
    [remainingMs] counted from the second clock reading, and with the map
    unchanged; every other token gets status 200 with [valid: false]. *)
Theorem validate_token_answers now1 now2 token s :
  match answer (validate_token now1 now2 token s) with
  | TokenRequired =>
      truthy token = false
      ∧ store_after (validate_token now1 now2 token s) = s
  | TokenValid e remaining =>
      answer (validateToken now1 token s) = true
      ∧ (∃ d, Map_get token s = Some d ∧ e = expiresAt d)
      ∧ now1 ≤ e
      ∧ remaining = e - now2
      ∧ store_after (validate_token now1 now2 token s) = s
  | TokenInvalid =>
      truthy token = true
      ∧ answer (validateToken now1 token s) = false
      ∧ store_after (validate_token now1 now2 token s)
        = store_after (validateToken now1 token s)
  | _ => False
  end.
Proof.
  rewrite validate_token_run.
  destruct token as [[|c t]|[]]; simpl; try done.
  destruct (s !! (c :: t)) as [d|] eqn:Hlook.
  - rewrite (validateToken_present now1 _ d) by done.
    destruct (Z.gtb_spec now1 (expiresAt d)); simpl; [done|].
    repeat split; [by exists d|lia].
  - by rewrite validateToken_absent.
Qed.

(** ** [requireAuth] *)

Lemma requireAuth_run now header body_token s :
  requireAuth now header body_token s =
    if negb (truthy (or_else header body_token))
    then (AuthenticationRequired, s, [])
    else if answer (validateToken now (or_else header body_token) s)
    then (Next, s, [])
    else (InvalidOrExpiredToken,
          store_after (validateToken now (or_else header body_token) s), []).
Proof.
  unfold requireAuth. simpl.
  destruct (truthy (or_else header body_token)); [|done]. simpl.
  unfold mbind, handler_bind.
  destruct (validateToken_cases now (or_else header body_token) s)
    as [->|[(t & d & _ & _ & _ & ->)|(t & d & _ & _ & _ & _ & ->)]]; done.
Qed.

Lemma or_else_truthy a b : truthy a = true → or_else a b = a.
Proof. intros Htr. unfold or_else. by rewrite Htr. Qed.

(** X19: the middleware lets the request through exactly when
    [validateToken] accepts the header token or, failing a header, the
    body token; it asks for authentication exactly when both are missing;
    and it changes the map only as that one validation does. *)
Theorem requireAuth_gate now header body_token s :
  (answer (requireAuth now header body_token s) = Next
   ↔ answer (validateToken now (or_else header body_token) s) = true)
  ∧ (answer (requireAuth now header body_token s) = AuthenticationRequired
     ↔ truthy header = false ∧ truthy body_token = false)
  ∧ store_after (requireAuth now header body_token s)
    = store_after (validateToken now (or_else header body_token) s).
Proof.
  rewrite requireAuth_run.
  destruct (truthy (or_else header body_token)) eqn:Htr; simpl.
  - assert (Hboth : ¬ (truthy header = false ∧ truthy body_token = false)).
    { intros [Hh Hb]. unfold or_else in Htr. rewrite Hh in Htr. congruence. }
    destruct (validateToken_cases now (or_else header body_token) s)
      as [->|[(t & d & _ & _ & _ & ->)|(t & d & _ & _ & _ & _ & ->)]];
      simpl; repeat split; try done.
  - assert (Hboth : truthy header = false ∧ truthy body_token = false).
    { unfold or_else in Htr.
      destruct (truthy header) eqn:Hh; [congruence|done]. }
    assert (Hrun : validateToken now (or_else header body_token) s
                   = (false, s, [])).
    { destruct (or_else header body_token) as [[|c t]|[]]; try done. }
    rewrite Hrun. destruct Hboth as [Hh Hb].
    unfold answer, store_after; simpl. by repeat split.
Qed.

(** X20: a header token takes precedence: when it is present and does not
    validate, the request is refused whatever the body carries. *)
Theorem requireAuth_header_first now header body_token s :
  truthy header = true →
  answer (validateToken now header s) = false →
  answer (requireAuth now header body_token s) = InvalidOrExpiredToken.
Proof.
  intros Htr Hinvalid.
  rewrite requireAuth_run, (or_else_truthy _ _ Htr), Htr, Hinvalid. done.
Qed.

Lemma requireAuth_header_first_witness :
  answer (validateToken 100 (JStr sample_token) one_session) = true
  ∧ answer (requireAuth 100 (JStr (js "stale")) (JStr sample_token)
              one_session) = InvalidOrExpiredToken.
Proof.
  split; [vm_compute; reflexivity|].
  apply (requireAuth_header_first 100 (JStr (js "stale")) (JStr sample_token)
           one_session); vm_compute; reflexivity.
Defined.

(** X21: the token a successful PIN request answers with opens the
    protected routes at every clock reading up to its expiry, and opens
    them at no clock reading once [logout] has revoked it. *)
Theorem login_access_logout
    sha env rnd now1 now2 req_ip pin s tok e ttl s' ev now body_token :
  length rnd = 32%nat →
  verify_pin sha env rnd now1 now2 req_ip pin s = (Authenticated tok e ttl, s', ev) →
  (now ≤ e → requireAuth now (JStr tok) body_token s' = (Next, s', []))
  ∧ answer (requireAuth now (JStr tok) body_token
              (store_after (logout (JStr tok) s')))
    = InvalidOrExpiredToken.
Proof.
  intros Hlen Hrun.
  apply verify_pin_authenticated in Hrun as (-> & -> & -> & ->).
  pose proof (generateToken_nonempty rnd Hlen) as Hne.
  assert (Htr : truthy (JStr (generateToken rnd)) = true)
    by (by destruct (generateToken rnd)).
  rewrite !requireAuth_run, !(or_else_truthy _ _ Htr), !Htr. cbn [negb].
  rewrite !validateToken_answer by done. split.
  - intros Hnow. unfold issue. rewrite lookup_insert_eq. simpl.
    by destruct (Z.gtb_spec now (now1 + TOKEN_EXPIRY_MS env)); [lia|].
  - change (store_after (logout ?k ?m)) with (revoke k m).
    rewrite revoke_lookup. by rewrite bool_decide_eq_true_2.
Qed.

Lemma login_access_logout_witness :
  requireAuth 100 (JStr sample_token) (JOther false) one_session
    = (Next, one_session, [])
  ∧ answer (requireAuth 100 (JStr sample_token) (JOther false)
              (store_after (logout (JStr sample_token) one_session)))
    = InvalidOrExpiredToken.
Proof.
  assert (Hrun : verify_pin plain_digest default_env sample_bytes 0 0 sample_ip
            (JStr (js "4698")) ∅
          = (Authenticated sample_token 28800000 28800000, one_session,
             [Hashed (js "4698cws-safety-2024");
              Logged (LogAuthenticated sample_ip)]))
    by (vm_compute; reflexivity).
  destruct (login_access_logout plain_digest default_env sample_bytes 0 0
              sample_ip (JStr (js "4698")) ∅ sample_token 28800000 28800000
              one_session _ 100 (JOther false) eq_refl Hrun)
    as [Hopen Hclosed].
  split; [apply Hopen; lia|exact Hclosed].
Defined.

(** ** The CORS origin callback *)

Lemma split_on_no_sep sep s : sep ∉ s → split_on sep s = [s].
Proof.
  induction s as [|c s IH]; intros Hnot; simpl; [done|].
  apply not_elem_of_cons in Hnot as [Hc Hs].
  destruct (N.eqb_spec c sep) as [->|_]; [done|].
  by rewrite IH.
Qed.

Lemma split_on_app_sep sep p rest :
  sep ∉ p → split_on sep (p ++ sep :: rest) = p :: split_on sep rest.
Proof.
  induction p as [|c p IH]; intros Hnot; simpl.
  - by rewrite N.eqb_refl.
  - apply not_elem_of_cons in Hnot as [Hc Hp].
    destruct (N.eqb_spec c sep) as [->|_]; [done|].
    by rewrite IH.
Qed.

Lemma split_on_join sep pieces :
  pieces ≠ [] →
  Forall (λ p, sep ∉ p) pieces →
  split_on sep (join_with sep pieces) = pieces.
Proof.
  intros Hne Hpieces. induction Hpieces as [|p pieces Hp Hrest IH]; [done|].
  destruct pieces as [|q pieces].
  - simpl. by apply split_on_no_sep.
  - change (join_with sep (p :: q :: pieces))
      with (p ++ sep :: join_with sep (q :: pieces)).
    rewrite split_on_app_sep by done. by rewrite IH.
Qed.

Lemma cors_origin_allowed allowed o :
  o ≠ [] → o ≠ js "null" →
  cors_origin allowed (Some o) = OriginAllowed
  ↔ js "*" ∈ allowed ∨ o ∈ allowed.
Proof.
  intros Hne Hnull. unfold cors_origin.
  destruct o as [|c o]; [done|].
  rewrite bool_decide_eq_false_2 by done.
  destruct (decide (js "*" ∈ allowed)) as [Hstar|Hstar].
  - rewrite (bool_decide_eq_true_2 _ Hstar). by split; auto.
  - rewrite (bool_decide_eq_false_2 _ Hstar).
    destruct (decide (c :: o ∈ allowed)) as [Hin|Hin].
    + rewrite (bool_decide_eq_true_2 _ Hin). by split; auto.
    + rewrite (bool_decide_eq_false_2 _ Hin). simpl.
      split; [done|]. by intros [?|?].
Qed.

(** X22: with [ALLOWED_ORIGINS] set to origins joined by commas, a request
    origin (other than the empty one and ['null'], which always pass) is
    allowed exactly when it is one of those origins or one of them is the
    wildcard ['*']. *)
Theorem cors_allows_configured pieces o :
  pieces ≠ [] →
  Forall (λ p, comma ∉ p) pieces →
  join_with comma pieces ≠ [] →
  o ≠ [] → o ≠ js "null" →
  cors_origin (allowedOrigins (Some (join_with comma pieces))) (Some o)
    = OriginAllowed
  ↔ js "*" ∈ pieces ∨ o ∈ pieces.
Proof.
  intros Hpieces Hcomma Hcfg Hne Hnull.
  rewrite cors_origin_allowed by done.
  unfold allowedOrigins.
  destruct (join_with comma pieces) as [|c cfg] eqn:Hjoin; [done|].
  by rewrite <- Hjoin, split_on_join.
Qed.

Lemma cors_allows_configured_witness :
  cors_origin
    (allowedOrigins (Some (js "https://a.example,https://b.example")))
    (Some (js "https://b.example")) = OriginAllowed
  ∧ cors_origin
      (allowedOrigins (Some (js "https://a.example,https://b.example")))
      (Some (js "https://c.example")) ≠ OriginAllowed.
Proof.
  assert (Hpieces : [js "https://a.example"; js "https://b.example"] ≠ [])
    by discriminate.
  assert (Hcomma : Forall (λ p, comma ∉ p)
            [js "https://a.example"; js "https://b.example"]).
  { apply (bool_decide_unpack _). vm_compute. exact I. }
  split.
  - apply (cors_allows_configured
             [js "https://a.example"; js "https://b.example"]
             (js "https://b.example") Hpieces Hcomma);
      [discriminate..|].
    right. apply (bool_decide_unpack _). vm_compute. exact I.
  - intros Hallowed.
    apply (cors_allows_configured
             [js "https://a.example"; js "https://b.example"]
             (js "https://c.example") Hpieces Hcomma) in Hallowed;
      [|discriminate..].
    destruct Hallowed as [Hin|Hin];
      apply (bool_decide_pack _) in Hin; vm_compute in Hin; exact Hin.
Defined.

(** X23: with [ALLOWED_ORIGINS] unset or empty, the only origin allowed
    besides the empty one and ['null'] is [http://localhost:3000]. *)
Theorem cors_default_origin cfg o :
  cfg = None ∨ cfg = Some [] →
  cors_origin (allowedOrigins cfg) (Some o) = OriginAllowed
  ↔ o = [] ∨ o = js "null" ∨ o = js "http://localhost:3000".
Proof.
  intros Hcfg.
  assert (Hlist : allowedOrigins cfg = [js "http://localhost:3000"])
    by (by destruct Hcfg as [-> | ->]).
  rewrite Hlist.
  destruct (decide (o = [])) as [->|Hne]; [by split; auto|].
  destruct (decide (o = js "null")) as [->|Hnull]; [by split; auto|].
  rewrite cors_origin_allowed by done.
  rewrite !list_elem_of_singleton. split.
  - intros [Hstar|Ho]; [discriminate|auto].
  - intros [?|[?|Ho]]; [done..|auto].
Qed.

Lemma cors_default_origin_witness :
  cors_origin (allowedOrigins None) (Some (js "http://localhost:3000"))
    = OriginAllowed
  ∧ cors_origin (allowedOrigins (Some [])) (Some (js "https://evil.example"))
    ≠ OriginAllowed.
Proof.
  split.
  - apply (cors_default_origin None (js "http://localhost:3000")); auto.
  - intros Hallowed.
    apply (cors_default_origin (Some []) (js "https://evil.example"))
      in Hallowed; [|auto].
    destruct Hallowed as [?|[?|?]]; discriminate.
Defined.

(** ** The endpoint and the middleware agree *)

(** X24: for a token that is present in the request, the middleware lets
    the request through exactly when the [validate-token] endpoint answers
    [valid: true] at the same clock reading, and both leave the same
    map. *)
Theorem endpoint_agrees_with_middleware now now2 token body_token s :
  truthy token = true →
  (answer (requireAuth now token body_token s) = Next
   ↔ ∃ e remaining,
       answer (validate_token now now2 token s) = TokenValid e remaining)
  ∧ store_after (requireAuth now token body_token s)
    = store_after (validate_token now now2 token s).
Proof.
  intros Htr.
  rewrite requireAuth_run, (or_else_truthy _ _ Htr), validate_token_run, Htr.
  cbn [negb].
  destruct token as [t|b].
  - destruct (decide (t = [])) as [->|Hne]; [done|]. simpl.
    destruct (s !! t) as [d|] eqn:Hlook.
    + rewrite (validateToken_present now t d) by done.
      destruct (now >? expiresAt d); unfold answer, store_after; simpl.
      * split; [|done]. split; [done|]. by intros (? & ? & ?).
      * split; [|done]. split; [by eauto|done].
    + rewrite validateToken_absent by done.
      unfold answer, store_after; simpl.
      split; [|done]. split; [done|]. by intros (? & ? & ?).
  - rewrite validateToken_other. unfold answer, store_after; simpl.
    split; [|done]. split; [done|]. by intros (? & ? & ?).
Qed.

Lemma endpoint_agrees_with_middleware_witness :
  answer (requireAuth 100 (JStr sample_token) (JOther false) one_session)
    = Next
  ↔ ∃ e remaining,
      answer (validate_token 100 101 (JStr sample_token) one_session)
        = TokenValid e remaining.
Proof.
  apply (endpoint_agrees_with_middleware 100 101 (JStr sample_token)
           (JOther false) one_session).
  reflexivity.
Defined.

(** ** Sessions along sequences of operations *)

Lemma apply_op_subseteq env op s :
  issues op = None → apply_op env op s ⊆ s.
Proof.
  intros Hop. apply map_subseteq_spec. intros t d Hlook.
  apply apply_op_lookup in Hlook
    as [Hold|(rnd & now1 & now2 & req_ip & -> & _)]; done.
Qed.

(** X25: the map never holds more sessions than it held at the start plus
    the number of issues since: validations, revocations and cleanups
    never add an entry. *)
Theorem session_count_bounded env ops s :
  (size (run_ops env ops s) ≤ size s + length (omap issues ops))%nat.
Proof.
  revert s. induction ops as [|op ops IH]; intros s; simpl; [lia|].
  etransitivity; [apply IH|]. unfold omap in *.
  destruct (issues op) as [tok|] eqn:Hop.
  - destruct op as [rnd now1 now2 req_ip| | |]; try done. simpl.
    unfold issue. rewrite map_size_insert.
    destruct (s !! generateToken rnd); simpl; lia.
  - pose proof (map_subseteq_size _ _ (apply_op_subseteq env op s Hop)).
    simpl. lia.
Qed.

(** X26: a session stays in the map, unchanged, along every sequence of
    operations that does not revoke its token, does not draw the token
    again, and validates it or cleans up only at clock readings up to its
    expiry. *)
Theorem session_survives env ops s t d :
  s !! t = Some d →
  Forall (spares t d) ops →
  run_ops env ops s !! t = Some d.
Proof.
  intros Hlook Hops. revert s Hlook.
  induction Hops as [|op ops Hop _ IH]; intros s Hlook; [done|].
  simpl. apply IH.
  destruct op as [rnd now1 now2 req_ip|now token|token|now]; simpl in *.
  - unfold issue. by rewrite lookup_insert_ne.
  - destruct (validateToken_cases now token s)
      as [->|[(t' & d' & -> & Hsome & Hexp & ->)
             |(t' & d' & -> & _ & _ & _ & ->)]]; [done| |done].
    unfold store_after; simpl.
    destruct (decide (t' = t)) as [->|Hne]; [|by rewrite lookup_delete_ne].
    specialize (Hop eq_refl). simplify_eq. lia.
  - rewrite revoke_lookup. rewrite bool_decide_eq_false_2; [done|].
    by intros [? _].
  - rewrite sweep_lookup, Hlook.
    by destruct (Z.gtb_spec now (expiresAt d)); [lia|].
Qed.

Lemma session_survives_witness :
  run_ops default_env
    [OpValidate 10 (JStr sample_token); OpSweep 28800000;
     OpIssue other_bytes 20 20 sample_ip;
     OpRevoke (JStr (generateToken other_bytes))]
    one_session !! sample_token
  = Some {| createdAt := 0; expiresAt := 28800000; ip := sample_ip |}.
Proof.
  apply (session_survives default_env
           [OpValidate 10 (JStr sample_token); OpSweep 28800000;
            OpIssue other_bytes 20 20 sample_ip;
            OpRevoke (JStr (generateToken other_bytes))]
           one_session sample_token).
  - vm_compute; reflexivity.
  - apply Forall_cons_2; [intros _; simpl; lia|].
    apply Forall_cons_2; [simpl; lia|].
    apply Forall_cons_2; [simpl; discriminate|].
    apply Forall_cons_2; [simpl; discriminate|].
    apply Forall_nil_2.
Defined.

(** X27: a rejection is final: on the map a rejected validation leaves,
    the same token is rejected at every clock reading, earlier ones
    included. *)
Theorem validateToken_rejection_final now now' token s :
  answer (validateToken now token s) = false →
  answer (validateToken now' token (store_after (validateToken now token s)))
  = false.
Proof.
  intros Hrej.
  destruct (validateToken_cases now token s)
    as [Hrun|[(t & d & -> & Hsome & Hexp & Hrun)
             |(t & d & -> & Hne & Hsome & Hlive & Hrun)]];
    rewrite Hrun in *; unfold answer, store_after in *; simpl in *; [| |done].
  - destruct token as [t|b]; [|by rewrite validateToken_other].
    destruct (decide (t = [])) as [->|Hne]; [done|].
    destruct (s !! t) as [d|] eqn:Hlook; [|by rewrite validateToken_absent].
    rewrite (validateToken_present now t d) in Hrun by done.
    destruct (now >? expiresAt d); [|done].
    injection Hrun as Hdel. rewrite <- Hdel.
    by rewrite validateToken_absent by apply lookup_delete_eq.
  - by rewrite validateToken_absent by apply lookup_delete_eq.
Qed.

Lemma validateToken_rejection_final_witness :
  answer (validateToken 5
            (JStr sample_token)
            (store_after
               (validateToken 28800001 (JStr sample_token) one_session)))
  = false.
Proof.
  apply (validateToken_rejection_final 28800001 5 (JStr sample_token)
           one_session).
  vm_compute; reflexivity.
Defined.
